(** * The sequential-commit aggregator of [src/main.go]

    The aggregator goroutine (lines 53-79) drains [commitChan]; for every
    value it inserts the value into the map [commits], then walks upwards
    from [committed + 1], deleting each key it finds, and finally stores the
    last key found into the atomic [committed].

    Offsets are Go [int64] values: they are embedded as [Z], and the one
    arithmetic operation of the loop, [c + 1], wraps around at 64 bits.
    The map [commits] is used as a set of keys and is embedded as a
    [gset Z].

    The channel serialises the producers, so a run of the goroutine is the
    list of values in the order received.  The number of values sent is
    [numMsgs], itself an [int64]; properties of whole runs are stated for
    lists of [int64] values of at most [max_int64] elements ([stream]).
    Only a longer run could bring the watermark to [max_int64] and make
    [c + 1] wrap ([absorb_wraps]). *)

From Equations Require Import Equations.
From stdpp Require Import base gmap sets list list_numbers sorting.
From Stdlib Require Import ZArith Lia.

#[local] Open Scope Z_scope.

(** ** 64-bit signed integers *)

Definition min_int64 : Z := - 2 ^ 63.
Definition max_int64 : Z := 2 ^ 63 - 1.

Definition int64 (z : Z) : Prop := min_int64 ≤ z ≤ max_int64.

(** Two's complement reduction of a mathematical integer to [int64]. *)
Definition wrap64 (z : Z) : Z := (z + 2 ^ 63) mod 2 ^ 64 - 2 ^ 63.

#[global] Instance int64_dec z : Decision (int64 z).
Proof. unfold int64. apply _. Defined.

(** ** The aggregator *)

(** The two variables the goroutine owns: the key set of the map [commits]
    (line 55) and the value last stored into [committed] (lines 52, 77). *)
Record state : Type := State { commits : gset Z; committed : Z }.

(** Lines 66 and 72: [next := c + 1] on [int64]. *)
Definition next (c : Z) : Z := wrap64 (c + 1).

(** Lines 67-74: the loop [for ok { c = next; delete(commits, next);
    next = c + 1; _, ok = commits[next] }], entered with [set] the current
    key set and [c] the value loaded from [committed]; the guard [ok] is the
    presence of [next] in the map.  It returns the key set and the value of
    [c] on exit. *)
Equations? absorb (set : gset Z) (c : Z) : state by wf (size set) lt :=
  absorb set c with decide (next c ∈ set) := {
    | left Hin => absorb (set ∖ {[ next c ]}) (next c);
    | right _ => State set c }.
Proof.
  apply subset_size. split.
  - apply subseteq_difference_l. reflexivity.
  - intros Hsub. specialize (Hsub _ Hin).
    apply elem_of_difference in Hsub as [_ Hne].
    apply Hne, elem_of_singleton. reflexivity.
Qed.

(** One turn of [for val := range commitChan] (lines 56-78): insert [val]
    (line 58), load [committed] (line 62), run the loop, store [c]
    (line 77). *)
Definition commitStep (st : state) (val : Z) : state :=
  absorb ({[ val ]} ∪ commits st) (committed st).

(** Lines 52 and 55: [committed := int64(-1)], [commits := make(map...)]. *)
Definition init : state := State ∅ (-1).

(** The goroutine's [range] loop over the values received, in order. *)
Definition run (l : list Z) : state := fold_left commitStep l init.

(** The values stored into [committed] (line 77), one per value received. *)
Fixpoint watermarks (st : state) (l : list Z) : list Z :=
  match l with
  | [] => []
  | val :: l' =>
      let st' := commitStep st val in committed st' :: watermarks st' l'
  end.

(** The same loop with an iteration budget: every turn of the loop body
    spends one unit of [fuel]; [None] means the budget ran out before the
    guard became false.  On exit it also reports the number of turns. *)
Fixpoint absorb_fuel (fuel : nat) (set : gset Z) (c : Z) : option (nat * state) :=
  if decide (next c ∈ set) then
    match fuel with
    | O => None
    | S fuel' =>
        match absorb_fuel fuel' (set ∖ {[ next c ]}) (next c) with
        | Some (n, st) => Some (S n, st)
        | None => None
        end
    end
  else Some (O, State set c).

(** ** What a run can be handed *)

(** The values sent on [commitChan] are [int64], and their number is the
    [int64] constant [numMsgs] (lines 29, 34, 40): a run is a list of
    [int64] values of at most [max_int64] elements. *)
Definition stream (l : list Z) : Prop :=
  Forall int64 l ∧ Z.of_nat (length l) ≤ max_int64.

#[global] Instance stream_dec l : Decision (stream l).
Proof. unfold stream. apply _. Defined.

(** The producers' contract (lines 40-47): the offsets [0 .. N-1], each
    sent once, in any order. *)
Definition offsets (N : Z) : list Z := seqZ 0 N.

(** [W] is covered by [l]: every offset of [[0, W]] occurs in [l]. *)
Definition contiguous (l : list Z) (W : Z) : Prop :=
  ∀ k, 0 ≤ k ≤ W → k ∈ l.

(** The watermark cannot wrap around while the values received do not
    contain all of [0 .. max_int64] together with [min_int64]. *)
Definition safe (l : list Z) : Prop :=
  ¬ (min_int64 ∈ l ∧ contiguous l max_int64).

(** The loop cannot wrap around from [c] within [set]. *)
Definition nowrap (set : gset Z) (c : Z) : Prop :=
  ¬ (min_int64 ∈ set ∧ ∀ k, c < k ≤ max_int64 → k ∈ set).

(** What relates the state to the values [l] received so far. *)
Record Inv (l : list Z) (st : state) : Prop := {
  inv_range : -1 ≤ committed st ≤ max_int64;
  inv_prefix : contiguous l (committed st);
  inv_pending : ∀ x, x ∈ commits st → x ∈ l;
  inv_absorbed : ∀ x, x ∈ l → x ∉ commits st → 0 ≤ x ≤ committed st;
  inv_next : next (committed st) ∉ commits st }.

(** ** The rest of [main]: producers, channel, monitor *)

(** Unsigned 64-bit integers. *)
Definition uint64 (z : Z) : Prop := 0 ≤ z < 2 ^ 64.

#[global] Instance uint64_dec z : Decision (uint64 z).
Proof. unfold uint64. apply _. Defined.

(** Lines 22-24: [return b / 1024 / 1024] on [uint64]; the division of
    non-negative integers truncates, and cannot leave the type. *)
Definition bToMb (b : Z) : Z := b / 1024 / 1024.

(** Lines 40-48: [for i := int64(0); i < numMsgs; i++ { go func(offset)
    {...}(i) }].  The result lists the offsets handed to the goroutines, in
    the order they are created; [i++] is [int64] addition.  Every turn
    spends one unit of [fuel]; [None] means the budget ran out. *)
Fixpoint spawn (fuel : nat) (numMsgs i : Z) : option (list Z) :=
  if decide (i < numMsgs) then
    match fuel with
    | O => None
    | S fuel' =>
        match spawn fuel' numMsgs (wrap64 (i + 1)) with
        | Some l => Some (i :: l)
        | None => None
        end
    end
  else Some [].

(** What can happen next in the running program: a goroutine that has
    finished sleeping sends its offset (line 46); the aggregator receives
    the oldest value of the channel and runs its loop body on it (lines
    56-77); the ticker fires and the monitor loads [committed] (lines
    89-90).  The store of line 77 is the only write to [committed], so a
    load sees the watermark of a completed commit step. *)
Inductive event : Type :=
| Send (offset : Z)
| Recv
| Tick.

(** The program after [waitStart.Done()] (line 83): the offsets of the
    goroutines that have not sent yet, the buffer of [commitChan] (oldest
    value first), the aggregator, the values printed by lines 93 and 96,
    and whether the monitor has left its loop (line 100). *)
Record system : Type := System {
  waiting : list Z;
  commitChan : list Z;
  aggregator : state;
  printed : list Z;
  finished : bool }.

#[global] Instance state_eq_dec : EqDecision state.
Proof. solve_decision. Defined.

#[global] Instance system_eq_dec : EqDecision system.
Proof. solve_decision. Defined.

(** Take the goroutine holding [offset] out of those still waiting. *)
Fixpoint take_out (offset : Z) (l : list Z) : option (list Z) :=
  match l with
  | [] => None
  | x :: l' =>
      if decide (x = offset) then Some l'
      else match take_out offset l' with
           | Some r => Some (x :: r)
           | None => None
           end
  end.

(** One event.  [None]: the event cannot happen in this state (nobody
    holds the offset, or the send would block on a full channel, or the
    receive would block on an empty one, or [main] has returned).  The
    channel has capacity [numMsgs] (line 34); the monitor leaves its loop
    when the value loaded is not below [numMsgs-1] (line 92). *)
Definition step (numMsgs : Z) (s : system) (ev : event) : option system :=
  if finished s then None
  else
    match ev with
    | Send offset =>
        match take_out offset (waiting s) with
        | Some w =>
            if decide (Z.of_nat (length (commitChan s)) < numMsgs)
            then Some (System w (commitChan s ++ [offset]) (aggregator s)
                              (printed s) false)
            else None
        | None => None
        end
    | Recv =>
        match commitChan s with
        | val :: q =>
            Some (System (waiting s) q (commitStep (aggregator s) val)
                         (printed s) false)
        | [] => None
        end
    | Tick =>
        let c := committed (aggregator s) in
        Some (System (waiting s) (commitChan s) (aggregator s)
                     (printed s ++ [c])
                     (bool_decide (¬ c < wrap64 (numMsgs - 1))))
    end.

(** A schedule: events one after the other. *)
Fixpoint exec (numMsgs : Z) (evs : list event) (s : system) : option system :=
  match evs with
  | [] => Some s
  | ev :: evs' =>
      match step numMsgs s ev with
      | Some s' => exec numMsgs evs' s'
      | None => None
      end
  end.

(** The offsets sent by a schedule, in the order of the sends. *)
Fixpoint sent (evs : list event) : list Z :=
  match evs with
  | [] => []
  | Send offset :: evs' => offset :: sent evs'
  | _ :: evs' => sent evs'
  end.

(** Lines 34-83: [make(chan int64, numMsgs)] panics on a negative size
    ([None]); otherwise the goroutines are created, [committed] is [-1],
    the map is empty and nothing has been printed by the monitor. *)
Definition boot (numMsgs : Z) : option system :=
  if decide (numMsgs < 0) then None
  else
    match spawn (Z.to_nat numMsgs) numMsgs 0 with
    | Some ws => Some (System ws [] init [] false)
    | None => None
    end.

(** What holds in every state the program can reach: the values the
    aggregator has processed ([r]), those in the channel and those not yet
    sent are together the offsets [0 .. numMsgs-1]; what was printed is a
    non-decreasing list of earlier watermarks, all below [numMsgs-1]
    except the one printed on leaving the loop. *)
Definition SysInv (numMsgs : Z) (s : system) : Prop :=
  ∃ r, aggregator s = run r ∧
       r ++ commitChan s ++ waiting s ≡ₚ offsets numMsgs ∧
       Forall (λ c, -1 ≤ c ≤ committed (aggregator s)) (printed s) ∧
       StronglySorted Z.le (printed s) ∧
       (if finished s
        then ∃ p, printed s = p ++ [numMsgs - 1] ∧ Forall (λ c, c < numMsgs - 1) p
        else Forall (λ c, c < numMsgs - 1) (printed s)).

(** ** Arithmetic of [next] *)

Lemma wrap64_id z : int64 z → wrap64 z = z.
Proof.
  unfold int64, wrap64, min_int64, max_int64. intros Hz.
  rewrite Z.mod_small by lia. lia.
Qed.

Lemma next_succ c : int64 c → c < max_int64 → next c = c + 1.
Proof.
  unfold next, int64. intros Hc Hlt. apply wrap64_id. unfold int64. lia.
Qed.

Lemma next_max : next max_int64 = min_int64.
Proof. reflexivity. Qed.

Lemma next_cases c :
  int64 c → (c < max_int64 ∧ next c = c + 1) ∨ (c = max_int64 ∧ next c = min_int64).
Proof.
  intros Hc. destruct (decide (c < max_int64)) as [Hlt|Hge].
  - left. split; [assumption | apply next_succ; assumption].
  - right. assert (c = max_int64) as -> by (unfold int64 in Hc; lia).
    split; [reflexivity | apply next_max].
Qed.

(** ** The loop *)

Lemma size_delete (set : gset Z) (x : Z) :
  x ∈ set → size set = S (size (set ∖ {[ x ]})).
Proof.
  intros Hx. rewrite size_difference by (apply singleton_subseteq_l; exact Hx).
  rewrite size_singleton.
  assert (0 < size set)%nat; [|lia].
  apply Nat.neq_0_lt_0. intros H0. apply size_empty_inv in H0.
  apply (not_elem_of_empty (C:=gset Z) x). rewrite <- H0. exact Hx.
Qed.

(** The loop, unfolded once. *)
Lemma absorb_eq set c :
  absorb set c =
  if decide (next c ∈ set) then absorb (set ∖ {[ next c ]}) (next c)
  else State set c.
Proof.
  rewrite absorb_equation_1.
  destruct (decide (next c ∈ set)); reflexivity.
Qed.

(** Induction along the turns of the loop. *)
Lemma absorb_loop_ind (P : gset Z → Z → state → Prop) :
  (∀ set c, next c ∉ set → P set c (State set c)) →
  (∀ set c, next c ∈ set →
     P (set ∖ {[ next c ]}) (next c) (absorb (set ∖ {[ next c ]}) (next c)) →
     P set c (absorb (set ∖ {[ next c ]}) (next c))) →
  ∀ set c, P set c (absorb set c).
Proof.
  intros Hexit Hturn set. remember (size set) as n eqn:Hn.
  revert set Hn. induction n as [n IH] using lt_wf_ind. intros set Hn c.
  rewrite absorb_eq. destruct (decide (next c ∈ set)) as [Hin|Hout].
  - apply Hturn; [exact Hin|]. apply (IH (size (set ∖ {[ next c ]}))); [|reflexivity].
    rewrite Hn, (size_delete set (next c) Hin). lia.
  - apply Hexit, Hout.
Qed.

(** On exit the guard is false: the key after the watermark is absent. *)
Lemma absorb_exit set c :
  next (committed (absorb set c)) ∉ commits (absorb set c).
Proof.
  apply (absorb_loop_ind (λ _ _ st, next (committed st) ∉ commits st)).
  - intros s k Hout. exact Hout.
  - intros s k _ IH. exact IH.
Qed.

(** The loop only deletes keys. *)
Lemma absorb_subseteq set c x :
  x ∈ commits (absorb set c) → x ∈ set.
Proof.
  revert x. apply (absorb_loop_ind (λ s _ st, ∀ x, x ∈ commits st → x ∈ s)).
  - intros s k _ x Hx. exact Hx.
  - intros s k _ IH x Hx. apply IH, elem_of_difference in Hx. tauto.
Qed.

(** What the loop computes when it does not wrap around: it advances [c]
    over the keys [c+1, c+2, ...] present in [set], deleting exactly
    those. *)
Lemma absorb_spec set c :
  int64 c → nowrap set c →
  c ≤ committed (absorb set c) ≤ max_int64 ∧
  (∀ k, c < k ≤ committed (absorb set c) → k ∈ set) ∧
  (∀ x, x ∈ commits (absorb set c) ↔
        x ∈ set ∧ ¬ (c < x ≤ committed (absorb set c))).
Proof.
  apply (absorb_loop_ind (λ s k st,
    int64 k → nowrap s k →
    k ≤ committed st ≤ max_int64 ∧
    (∀ j, k < j ≤ committed st → j ∈ s) ∧
    (∀ x, x ∈ commits st ↔ x ∈ s ∧ ¬ (k < x ≤ committed st)))).
  - intros s k Hout Hk _. simpl. unfold int64 in Hk.
    split; [lia|]. split; [intros j Hj; lia|].
    intros x. split; [intros Hx; split; [exact Hx | lia] | tauto].
  - intros s k Hin IH Hk Hnw.
    destruct (next_cases k Hk) as [[Hlt Hnext]|[-> Hnext]].
    + rewrite Hnext in *.
      destruct IH as (Hle & Hrun & Hkeys).
      { unfold int64 in *. lia. }
      { intros [Hmin Hall]. apply Hnw. split.
        - apply elem_of_difference in Hmin. tauto.
        - intros j Hj. destruct (decide (j = k + 1)) as [->|Hne]; [exact Hin|].
          assert (j ∈ s ∖ {[ k + 1 ]}) as Hj' by (apply Hall; lia).
          apply elem_of_difference in Hj'. tauto. }
      split; [lia|]. split.
      * intros j Hj. destruct (decide (j = k + 1)) as [->|Hne]; [exact Hin|].
        assert (j ∈ s ∖ {[ k + 1 ]}) as Hj' by (apply Hrun; lia).
        apply elem_of_difference in Hj'. tauto.
      * intros x. rewrite Hkeys, elem_of_difference, elem_of_singleton.
        split.
        -- intros [[Hx Hne] Hnot]. split; [exact Hx | lia].
        -- intros [Hx Hnot]. split; [split; [exact Hx | lia] | lia].
    + exfalso. apply Hnw. rewrite Hnext in Hin. split; [exact Hin|].
      intros j Hj. lia.
Qed.

(** At [max_int64] the successor is [min_int64]: were that key pending,
    the loop would carry the watermark around. *)
Lemma absorb_wraps : absorb {[ min_int64 ]} max_int64 = State ∅ min_int64.
Proof. vm_compute. reflexivity. Qed.

(** The budgeted loop and the loop agree as soon as the budget covers the
    size of the key set, and each turn deletes one key. *)
Lemma absorb_fuel_enough fuel set c :
  (size set ≤ fuel)%nat →
  ∃ n, absorb_fuel fuel set c = Some (n, absorb set c) ∧
       (size (commits (absorb set c)) + n = size set)%nat.
Proof.
  revert set c. induction fuel as [|fuel IH]; intros set c Hsz.
  - rewrite absorb_eq. simpl.
    destruct (decide (next c ∈ set)) as [Hin|Hout].
    + rewrite (size_delete set (next c) Hin) in Hsz. lia.
    + exists O. split; [reflexivity | simpl; lia].
  - rewrite absorb_eq. simpl.
    destruct (decide (next c ∈ set)) as [Hin|Hout].
    + pose proof (size_delete set (next c) Hin) as Hdel.
      destruct (IH (set ∖ {[ next c ]}) (next c)) as (n & Heq & Hn); [lia|].
      rewrite Heq. exists (S n). split; [reflexivity | lia].
    + exists O. split; [reflexivity | simpl; lia].
Qed.

(** ** The invariant of a run *)

Lemma run_snoc l v : run (l ++ [v]) = commitStep (run l) v.
Proof. unfold run. rewrite fold_left_app. reflexivity. Qed.

Lemma run_app l l' : run (l ++ l') = fold_left commitStep l' (run l).
Proof. unfold run. apply fold_left_app. Qed.

Lemma contiguous_app l l' W : contiguous l W → contiguous (l ++ l') W.
Proof. intros H k Hk. apply elem_of_app. left. apply H, Hk. Qed.

Lemma safe_app l l' : safe (l ++ l') → safe l.
Proof.
  intros Hs [Hmin Hall]. apply Hs. split.
  - apply elem_of_app. left. exact Hmin.
  - apply contiguous_app, Hall.
Qed.

Lemma Inv_init : Inv [] init.
Proof.
  split; simpl.
  - unfold max_int64. lia.
  - intros k Hk. lia.
  - intros x Hx. apply not_elem_of_empty in Hx. contradiction.
  - intros x Hx. apply not_elem_of_nil in Hx. contradiction.
  - apply not_elem_of_empty.
Qed.

Lemma Inv_int64 l st : Inv l st → int64 (committed st).
Proof. intros [Hr _ _ _ _]. unfold int64, min_int64. lia. Qed.

Lemma Inv_nowrap l st v :
  Inv l st → safe (l ++ [v]) → nowrap ({[ v ]} ∪ commits st) (committed st).
Proof.
  intros HI Hs [Hmin Hall]. apply Hs. split.
  - apply elem_of_app. apply elem_of_union in Hmin as [Hv|Hc].
    + right. apply elem_of_singleton in Hv. subst. apply list_elem_of_singleton. reflexivity.
    + left. apply (inv_pending _ _ HI), Hc.
  - intros k Hk. apply elem_of_app.
    destruct (decide (k ≤ committed st)) as [Hle|Hgt].
    + left. apply (inv_prefix _ _ HI). lia.
    + assert (k ∈ ({[ v ]} ∪ commits st : gset Z)) as Hin by (apply Hall; lia).
      apply elem_of_union in Hin as [Hv|Hc].
      * right. apply elem_of_singleton in Hv. subst. apply list_elem_of_singleton. reflexivity.
      * left. apply (inv_pending _ _ HI), Hc.
Qed.

(** One commit step: the invariant is kept, the watermark does not go
    down, the keys it passes over were pending (or are the new value), and
    exactly those are deleted. *)
Lemma commitStep_spec l st v :
  Inv l st → safe (l ++ [v]) →
  Inv (l ++ [v]) (commitStep st v) ∧
  committed st ≤ committed (commitStep st v) ∧
  (∀ k, committed st < k ≤ committed (commitStep st v) → k = v ∨ k ∈ commits st) ∧
  (∀ x, x ∈ commits (commitStep st v) ↔
        (x = v ∨ x ∈ commits st) ∧
        ¬ (committed st < x ≤ committed (commitStep st v))).
Proof.
  intros HI Hs. unfold commitStep.
  destruct (absorb_spec ({[ v ]} ∪ commits st) (committed st))
    as (Hle & Hrun & Hkeys); [eapply Inv_int64, HI | eapply Inv_nowrap; eassumption |].
  pose proof (absorb_exit ({[ v ]} ∪ commits st) (committed st)) as Hexit.
  set (st' := absorb ({[ v ]} ∪ commits st) (committed st)) in *.
  assert (∀ x, x ∈ ({[ v ]} ∪ commits st : gset Z) ↔ x = v ∨ x ∈ commits st) as Hset.
  { intros x. rewrite elem_of_union, elem_of_singleton. reflexivity. }
  assert (∀ x, x = v ∨ x ∈ commits st → x ∈ l ++ [v]) as Hrecv.
  { intros x [->|Hc]; apply elem_of_app.
    - right. apply list_elem_of_singleton. reflexivity.
    - left. apply (inv_pending _ _ HI), Hc. }
  pose proof (inv_range _ _ HI) as Hr.
  split; [split|split; [lia|split]].
  - lia.
  - intros k Hk. destruct (decide (k ≤ committed st)) as [Hk'|Hk'].
    + apply elem_of_app. left. apply (inv_prefix _ _ HI). lia.
    + apply Hrecv, Hset, Hrun. lia.
  - intros x Hx. apply Hrecv, Hset, Hkeys, Hx.
  - intros x Hx Hnot.
    destruct (decide (committed st < x ≤ committed st')) as [Hin|Hout]; [lia|].
    assert (x ∉ ({[ v ]} ∪ commits st : gset Z)) as Hnset.
    { intros Hc. apply Hnot, Hkeys. split; assumption. }
    rewrite Hset in Hnset.
    apply elem_of_app in Hx as [Hx|Hx].
    + pose proof (inv_absorbed _ _ HI x Hx) as Habs. 
      assert (0 ≤ x ≤ committed st) by (apply Habs; tauto). lia.
    + apply list_elem_of_singleton in Hx. tauto.
  - exact Hexit.
  - intros k Hk. apply Hset, Hrun, Hk.
  - intros x. rewrite Hkeys, Hset. reflexivity.
Qed.

Lemma run_Inv l : safe l → Inv l (run l).
Proof.
  induction l as [|v l IH] using rev_ind; intros Hs.
  - apply Inv_init.
  - rewrite run_snoc. apply commitStep_spec; [|exact Hs].
    apply IH. eapply safe_app, Hs.
Qed.

(** ** Counting *)

(** A list that covers [[0, W]] has at least [W + 1] elements. *)
Lemma contiguous_length l W : contiguous l W → W + 1 ≤ Z.of_nat (length l).
Proof.
  intros Hc. destruct (decide (W < 0)) as [Hneg|Hpos]; [lia|].
  assert (seqZ 0 (W + 1) ⊆+ l) as Hsub.
  { apply NoDup_submseteq; [apply NoDup_seqZ|].
    intros x Hx. apply elem_of_seqZ in Hx. apply Hc. lia. }
  apply submseteq_length in Hsub. rewrite length_seqZ in Hsub. lia.
Qed.

Lemma stream_app_l l l' : stream (l ++ l') → stream l.
Proof.
  intros [Hty Hlen]. apply Forall_app in Hty as [Hty _].
  rewrite length_app in Hlen. split; [exact Hty | lia].
Qed.

Lemma stream_remove l d rest : stream (l ++ d :: rest) → stream (l ++ rest).
Proof.
  intros [Hty Hlen]. split.
  - apply Forall_app in Hty as [Hl Hr]. apply Forall_cons in Hr as [_ Hr].
    apply Forall_app. split; assumption.
  - rewrite length_app in *. simpl in Hlen. lia.
Qed.

(** The facts every run provides. *)
Section Stream.
Variable l : list Z.
Hypothesis Hst : stream l.

Lemma stream_safe : safe l.
Proof.
  intros [_ Hall]. apply contiguous_length in Hall.
  destruct Hst as [_ Hlen]. lia.
Qed.

Lemma stream_Inv : Inv l (run l).
Proof. apply run_Inv, stream_safe. Qed.

(** The watermark stays below [max_int64], so [next] does not wrap. *)
Lemma stream_below_max : committed (run l) < max_int64.
Proof.
  pose proof (contiguous_length _ _ (inv_prefix _ _ stream_Inv)) as Hlen.
  destruct Hst as [_ Hle]. lia.
Qed.

Lemma stream_next : next (committed (run l)) = committed (run l) + 1.
Proof. apply next_succ; [eapply Inv_int64, stream_Inv | apply stream_below_max]. Qed.

Lemma stream_succ_not_pending : committed (run l) + 1 ∉ commits (run l).
Proof. rewrite <- stream_next. apply (inv_next _ _ stream_Inv). Qed.
End Stream.

(** ** The watermark is the covered prefix *)

Lemma watermark_succ_absent l :
  Forall int64 l → safe l → committed (run l) + 1 ∉ l.
Proof.
  intros Hty Hs Hin. pose proof (run_Inv l Hs) as HI.
  destruct (next_cases _ (Inv_int64 _ _ HI)) as [[Hlt Hnext]|[Hmax _]].
  - pose proof (inv_next _ _ HI) as Hexit. rewrite Hnext in Hexit.
    pose proof (inv_absorbed _ _ HI _ Hin Hexit). lia.
  - rewrite Forall_forall in Hty. specialize (Hty _ Hin).
    unfold int64 in Hty. lia.
Qed.

Lemma watermark_largest l W :
  Forall int64 l → safe l → contiguous l W → W ≤ committed (run l).
Proof.
  intros Hty Hs Hc. pose proof (run_Inv l Hs) as HI.
  pose proof (inv_range _ _ HI) as Hr.
  destruct (decide (W ≤ committed (run l))) as [Hle|Hgt]; [exact Hle|].
  exfalso. apply (watermark_succ_absent l Hty Hs). apply Hc. lia.
Qed.

(** The watermark is a function of the non-negative values received. *)
Lemma watermark_same_offsets l l' :
  Forall int64 l → safe l → Forall int64 l' → safe l' →
  (∀ k, 0 ≤ k → k ∈ l ↔ k ∈ l') →
  committed (run l) = committed (run l').
Proof.
  intros Hty Hs Hty' Hs' Heq.
  assert (committed (run l) ≤ committed (run l')).
  { apply watermark_largest; [assumption..|].
    intros k Hk. apply Heq; [lia|]. apply (inv_prefix _ _ (run_Inv l Hs)), Hk. }
  assert (committed (run l') ≤ committed (run l)).
  { apply watermark_largest; [assumption..|].
    intros k Hk. apply Heq; [lia|]. apply (inv_prefix _ _ (run_Inv l' Hs')), Hk. }
  lia.
Qed.

Lemma watermark_mono l l' :
  safe (l ++ l') → committed (run l) ≤ committed (run (l ++ l')).
Proof.
  induction l' as [|v l' IH] using rev_ind; intros Hs.
  - rewrite app_nil_r. lia.
  - rewrite app_assoc in Hs |- *. rewrite run_snoc.
    pose proof (safe_app _ _ Hs) as Hs'.
    destruct (commitStep_spec _ _ v (run_Inv _ Hs') Hs) as (_ & Hle & _).
    specialize (IH Hs'). lia.
Qed.

Lemma offsets_stream N l : 0 ≤ N ≤ max_int64 → l ≡ₚ offsets N → stream l.
Proof.
  intros HN Hp. split.
  - rewrite Hp. apply Forall_seqZ. intros k Hk.
    unfold int64, min_int64, max_int64 in *. lia.
  - rewrite Hp. unfold offsets. rewrite length_seqZ. lia.
Qed.

Lemma watermarks_lookup l st i w :
  watermarks st l !! i = Some w →
  w = committed (fold_left commitStep (take (S i) l) st).
Proof.
  revert st i. induction l as [|v l IH]; intros st i Hw; [discriminate|].
  destruct i as [|i]; simpl in Hw.
  - injection Hw as <-. reflexivity.
  - apply IH in Hw. exact Hw.
Qed.

Lemma offsets_watermark N l :
  0 ≤ N ≤ max_int64 → l ≡ₚ offsets N → committed (run l) = N - 1.
Proof.
  intros HN Hp. pose proof (offsets_stream N l HN Hp) as Hst.
  pose proof (stream_Inv l Hst) as HI.
  assert (N - 1 ≤ committed (run l)).
  { apply watermark_largest; [apply Hst | apply stream_safe, Hst |].
    intros k Hk. rewrite Hp. apply elem_of_seqZ. lia. }
  destruct (decide (committed (run l) ≤ N - 1)) as [Hle|Hgt]; [lia|].
  assert (N ∈ l) as Hin by (apply (inv_prefix _ _ HI); lia).
  rewrite Hp in Hin. apply elem_of_seqZ in Hin. lia.
Qed.

(** ** The claims *)

(** C1 (P2, completeness).  When the values received are the offsets
    [0 .. N-1], each exactly once, in whatever order, the watermark after
    the last of them is [N - 1]; hence it is the same for every arrival
    order of these offsets.  [N] is the [int64] message count. *)
Theorem completeness (N : Z) (l : list Z) :
  0 ≤ N ≤ max_int64 → l ≡ₚ offsets N →
  committed (run l) = N - 1 ∧
  ∀ l', l' ≡ₚ l → committed (run l') = committed (run l).
Proof.
  intros HN Hp. split; [apply offsets_watermark; assumption|].
  intros l' Hp'. rewrite (offsets_watermark N l HN Hp).
  apply offsets_watermark; [exact HN|]. rewrite Hp'. exact Hp.
Qed.

Lemma completeness_witness :
  (0 ≤ 3 ≤ max_int64 ∧ [2; 0; 1] ≡ₚ offsets 3) ∧ committed (run [2; 0; 1]) = 2.
Proof.
  split; [compute_done|].
  apply (completeness 3 [2; 0; 1]); compute_done.
Defined.

(** C2 (P1, monotonicity).  Whatever [int64] values a run receives, the
    watermark stored after a commit step is at least the one stored after
    the previous step, and so at least every earlier one; it starts from
    [-1]. *)
Theorem watermark_monotone (l : list Z) (v : Z) (rest : list Z) :
  stream (l ++ v :: rest) →
  -1 ≤ committed (run l) ∧
  committed (run l) ≤ committed (commitStep (run l) v) ∧
  committed (commitStep (run l) v) ≤ committed (run (l ++ v :: rest)).
Proof.
  intros Hst. pose proof (stream_safe _ Hst) as Hs.
  replace (l ++ v :: rest) with ((l ++ [v]) ++ rest) in *
    by (rewrite <- app_assoc; reflexivity).
  pose proof (safe_app _ _ Hs) as Hs1. pose proof (safe_app _ _ Hs1) as Hs0.
  split; [apply (inv_range _ _ (run_Inv l Hs0))|]. split.
  - rewrite <- run_snoc. apply watermark_mono, Hs1.
  - rewrite <- run_snoc. apply watermark_mono, Hs.
Qed.

Lemma watermark_monotone_witness :
  stream ([5; 0; 0] ++ -7 :: [1; 2]) ∧
  committed (run [5; 0; 0]) ≤ committed (commitStep (run [5; 0; 0]) (-7)).
Proof.
  split; [compute_done|].
  apply (watermark_monotone [5; 0; 0] (-7) [1; 2]). compute_done.
Defined.

(** C3 (P3, no over-commit; the definition of the watermark).  After every
    commit step the watermark [w] is the largest value such that every
    offset of [[0, w]] has been received: [[0, w]] is covered, no larger
    value is, [w] is [-1] when offset [0] has not been received, and [w]
    is below every [V] for which some offset of [[0, V]] is missing. *)
Theorem watermark_is_covered_prefix (l : list Z) :
  stream l →
  -1 ≤ committed (run l) ∧
  contiguous l (committed (run l)) ∧
  (∀ W, contiguous l W → W ≤ committed (run l)) ∧
  (0 ∉ l → committed (run l) = -1) ∧
  (∀ V k, 0 ≤ k ≤ V → k ∉ l → committed (run l) < V).
Proof.
  intros Hst. pose proof (stream_Inv l Hst) as HI.
  pose proof (inv_range _ _ HI) as Hr. pose proof (inv_prefix _ _ HI) as Hp.
  split; [lia|]. split; [exact Hp|]. split; [|split].
  - intros W HW. apply watermark_largest; [apply Hst | apply stream_safe, Hst | exact HW].
  - intros H0. destruct (decide (committed (run l) = -1)) as [Heq|Hne]; [exact Heq|].
    exfalso. apply H0, Hp. lia.
  - intros V k Hk Hnot. destruct (decide (committed (run l) < V)) as [Hlt|Hge]; [exact Hlt|].
    exfalso. apply Hnot, Hp. lia.
Qed.

Lemma watermark_is_covered_prefix_witness :
  stream [3; 0; 1] ∧ contiguous [3; 0; 1] (committed (run [3; 0; 1])).
Proof.
  split; [compute_done|].
  apply (watermark_is_covered_prefix [3; 0; 1]). compute_done.
Defined.

(** C4 (Scenario A), as the code runs it.  Receiving 2, 0, 1, 4, 3 in
    this order stores the watermarks -1, 0, 2, 2, 4: offset 2 is already
    pending when offset 1 arrives, so that step absorbs both. *)
Theorem scenario_A : watermarks init [2; 0; 1; 4; 3] = [-1; 0; 2; 2; 4].
Proof. vm_compute. reflexivity. Qed.

(** C4 as the specification states it (-1, 0, 1, 1, 4) does not hold. *)
Lemma scenario_A_spec_fails :
  watermarks init [2; 0; 1; 4; 3] ≠ [-1; 0; 1; 1; 4].
Proof. vm_compute. discriminate. Qed.

Lemma state_eta st : State (commits st) (committed st) = st.
Proof. destruct st. reflexivity. Qed.

(** A key at or below the watermark is never deleted. *)
Lemma stale_stays l rest x :
  safe (l ++ rest) → x ∈ commits (run l) → x ≤ committed (run l) →
  x ∈ commits (run (l ++ rest)) ∧ x ≤ committed (run (l ++ rest)).
Proof.
  induction rest as [|v rest IH] using rev_ind; intros Hs Hx Hle.
  - rewrite app_nil_r. split; assumption.
  - rewrite app_assoc in Hs |- *. rewrite run_snoc.
    pose proof (safe_app _ _ Hs) as Hs'. destruct (IH Hs' Hx Hle) as [Hx' Hle'].
    destruct (commitStep_spec _ _ v (run_Inv _ Hs') Hs) as (_ & Hmono & _ & Hkeys).
    split; [|lia]. apply Hkeys. split; [right; exact Hx' | lia].
Qed.

(** C5 (P4, duplicates), as the code does it.  A duplicate never changes
    the watermark, neither at once nor at the end of the run, and the
    step cannot fail.  A value that is still pending leaves the state as
    it is; a value at or below the watermark, however, is inserted into
    the pending set again and stays there for the rest of the run. *)
Theorem duplicate_offset (l : list Z) (d : Z) (rest : list Z) :
  stream (l ++ d :: rest) →
  (d ∈ commits (run l) → commitStep (run l) d = run l) ∧
  (d ≤ committed (run l) →
     commitStep (run l) d = State ({[ d ]} ∪ commits (run l)) (committed (run l))) ∧
  (d ≤ committed (run l) → d ∈ commits (run (l ++ d :: rest))) ∧
  (d ∈ commits (run l) ∨ d ≤ committed (run l) →
     committed (commitStep (run l) d) = committed (run l) ∧
     committed (run (l ++ d :: rest)) = committed (run (l ++ rest))).
Proof.
  intros Hst. pose proof (stream_app_l _ _ Hst) as Hstl.
  pose proof (stream_Inv l Hstl) as HI.
  pose proof (stream_below_max l Hstl) as Hmax.
  pose proof (next_succ _ (Inv_int64 _ _ HI) Hmax) as Hnext.
  pose proof (inv_next _ _ HI) as Hexit. rewrite Hnext in Hexit.
  assert (d ∈ commits (run l) → commitStep (run l) d = run l) as Hpend.
  { intros Hd. unfold commitStep.
    replace ({[ d ]} ∪ commits (run l)) with (commits (run l)).
    - rewrite absorb_eq, Hnext, decide_False by exact Hexit. apply state_eta.
    - apply set_eq. intros x. rewrite elem_of_union, elem_of_singleton.
      split; [tauto | intros [->|Hx]; assumption]. }
  assert (d ≤ committed (run l) →
          commitStep (run l) d = State ({[ d ]} ∪ commits (run l)) (committed (run l)))
    as Hpast.
  { intros Hd. unfold commitStep. rewrite absorb_eq, Hnext, decide_False; [reflexivity|].
    rewrite elem_of_union, elem_of_singleton. intros [Heq|Hin]; [lia | tauto]. }
  split; [exact Hpend|]. split; [exact Hpast|]. split.
  { intros Hd. replace (l ++ d :: rest) with ((l ++ [d]) ++ rest) in *
      by (rewrite <- app_assoc; reflexivity).
    apply stale_stays; [apply stream_safe, Hst | |];
      rewrite run_snoc, (Hpast Hd); simpl; [|exact Hd].
    apply elem_of_union. left. apply elem_of_singleton. reflexivity. }
  intros Hdup. split.
  - destruct Hdup as [Hd|Hd]; [rewrite (Hpend Hd) | rewrite (Hpast Hd)]; reflexivity.
  - pose proof (stream_remove _ _ _ Hst) as Hst'.
    apply watermark_same_offsets;
      [apply Hst | apply stream_safe, Hst | apply Hst' | apply stream_safe, Hst' |].
    intros k Hk. rewrite !elem_of_app, elem_of_cons.
    split; [|tauto]. intros [Hin|[->|Hin]]; [tauto| |tauto].
    left. destruct Hdup as [Hd|Hd].
    + apply (inv_pending _ _ HI), Hd.
    + apply (inv_prefix _ _ HI). lia.
Qed.

Lemma duplicate_offset_witness :
  (stream ([1; 0] ++ 1 :: [2]) ∧ 1 ≤ committed (run [1; 0])) ∧
  committed (run ([1; 0] ++ 1 :: [2])) = committed (run ([1; 0] ++ [2])).
Proof.
  split; [compute_done|].
  apply (duplicate_offset [1; 0] 1 [2]); [compute_done|].
  right. compute_done.
Defined.

(** C5 as the specification states it fails: receiving offset 1 again
    after it has been absorbed changes the pending set. *)
Lemma duplicate_changes_pending :
  stream ([1; 0] ++ [1]) ∧
  1 ≤ committed (run [1; 0]) ∧
  commits (commitStep (run [1; 0]) 1) ≠ commits (run [1; 0]).
Proof. compute_done. Qed.

(** Non-negative values cannot make the watermark wrap. *)
Lemma nonneg_safe l : Forall (λ v, 0 ≤ v ≤ max_int64) l → safe l.
Proof.
  intros Hnn [Hmin _]. rewrite Forall_forall in Hnn.
  specialize (Hnn _ Hmin). unfold min_int64 in Hnn. lia.
Qed.

Lemma pending_above l :
  NoDup l → Forall (λ v, 0 ≤ v ≤ max_int64) l →
  ∀ x, x ∈ commits (run l) → committed (run l) < x.
Proof.
  induction l as [|v l IH] using rev_ind; intros Hnd Hnn x Hx.
  - apply not_elem_of_empty in Hx. contradiction.
  - pose proof (nonneg_safe _ Hnn) as Hs.
    apply NoDup_app in Hnd as (Hnd & Hfresh & _).
    apply Forall_app in Hnn as [Hnn Hv]. rewrite Forall_singleton in Hv.
    pose proof (run_Inv l (nonneg_safe _ Hnn)) as HI.
    rewrite run_snoc in *.
    destruct (commitStep_spec l (run l) v HI Hs) as (_ & Hle & _ & Hkeys).
    apply Hkeys in Hx as [[->|Hx] Hnot].
    + assert (¬ (0 ≤ v ≤ committed (run l))) as Hout.
      { intros Hin. apply (inv_prefix _ _ HI) in Hin.
        apply (Hfresh v Hin), list_elem_of_singleton. reflexivity. }
      lia.
    + specialize (IH Hnd Hnn x Hx). lia.
Qed.

(** C6 (pending-set invariant), as the code keeps it.  While the values
    received are distinct and non-negative, every member of the pending
    set is strictly above the watermark after every step of the run, and
    so is the value the next step inserts (line 58), while [committed]
    still holds the watermark of the step before. *)
Theorem pending_above_watermark (l rest : list Z) :
  NoDup (l ++ rest) → Forall (λ v, 0 ≤ v ≤ max_int64) (l ++ rest) →
  (∀ x, x ∈ commits (run l) → committed (run l) < x) ∧
  (∀ v rest', rest = v :: rest' →
     ∀ x, x ∈ ({[ v ]} ∪ commits (run l) : gset Z) → committed (run l) < x).
Proof.
  intros Hnd Hnn.
  assert (∀ x, x ∈ commits (run l) → committed (run l) < x) as Hpend.
  { apply pending_above.
    - apply NoDup_app in Hnd. tauto.
    - apply Forall_app in Hnn. tauto. }
  split; [exact Hpend|].
  intros v rest' -> x Hx. apply elem_of_union in Hx as [Hx|Hx]; [|apply Hpend, Hx].
  apply elem_of_singleton in Hx. subst x.
  apply NoDup_app in Hnd as (_ & Hfresh & _).
  apply Forall_app in Hnn as [Hnn Hv]. apply Forall_cons in Hv as [Hv _].
  pose proof (run_Inv l (nonneg_safe _ Hnn)) as HI.
  destruct (decide (committed (run l) < v)) as [Hlt|Hge]; [exact Hlt|].
  exfalso. apply (Hfresh v); [|apply elem_of_cons; left; reflexivity].
  apply (inv_prefix _ _ HI). lia.
Qed.

Lemma pending_above_watermark_witness :
  (NoDup ([3; 0; 5] ++ [1; 2]) ∧
   Forall (λ v, 0 ≤ v ≤ max_int64) ([3; 0; 5] ++ [1; 2]) ∧
   5 ∈ commits (run [3; 0; 5])) ∧
  committed (run [3; 0; 5]) < 5.
Proof.
  split; [compute_done|].
  apply (pending_above_watermark [3; 0; 5] [1; 2]); compute_done.
Defined.

(** C6 as the specification states it fails: a value received twice, or a
    negative value, sits in the pending set at or below the watermark. *)
Lemma pending_not_above_watermark :
  (0 ∈ commits (run [0; 0]) ∧ 0 ≤ committed (run [0; 0])) ∧
  (-5 ∈ commits (run [-5]) ∧ -5 ≤ committed (run [-5])).
Proof. compute_done. Qed.

(** With distinct non-negative values the pending set and the covered
    prefix partition the values received. *)
Lemma pending_size l :
  NoDup l → Forall (λ v, 0 ≤ v ≤ max_int64) l →
  Z.of_nat (size (commits (run l))) = Z.of_nat (length l) - (committed (run l) + 1).
Proof.
  intros Hnd Hnn. pose proof (run_Inv l (nonneg_safe _ Hnn)) as HI.
  pose proof (inv_range _ _ HI) as Hr.
  assert ((list_to_set l : gset Z)
          = commits (run l) ∪ list_to_set (seqZ 0 (committed (run l) + 1))) as Heq.
  { apply set_eq. intros x.
    rewrite elem_of_union, !elem_of_list_to_set, elem_of_seqZ. split.
    - intros Hx. destruct (decide (x ∈ commits (run l))) as [Hin|Hout]; [tauto|].
      right. pose proof (inv_absorbed _ _ HI x Hx Hout). lia.
    - intros [Hx|Hx]; [apply (inv_pending _ _ HI), Hx|].
      apply (inv_prefix _ _ HI). lia. }
  assert (commits (run l) ## (list_to_set (seqZ 0 (committed (run l) + 1)) : gset Z))
    as Hdisj.
  { intros x Hx Hx'. apply elem_of_list_to_set, elem_of_seqZ in Hx'.
    pose proof (pending_above l Hnd Hnn x Hx). lia. }
  apply (f_equal size) in Heq.
  rewrite size_union in Heq by exact Hdisj.
  rewrite !size_list_to_set in Heq by (assumption || apply NoDup_seqZ).
  rewrite length_seqZ in Heq. lia.
Qed.

(** C7 (P5, pending-set bound), as the code keeps it.  While the offsets
    [0 .. N-1] arrive, each once, the pending set never has more members
    than the number of values received minus (watermark + 1); it is empty
    whenever the watermark is [N - 1], which is the case once all [N]
    offsets have arrived. *)
Theorem pending_size_bound (N : Z) (l rest : list Z) :
  0 ≤ N ≤ max_int64 → l ++ rest ≡ₚ offsets N →
  Z.of_nat (size (commits (run l))) ≤ Z.of_nat (length l) - (committed (run l) + 1) ∧
  (committed (run l) = N - 1 → size (commits (run l)) = 0%nat) ∧
  (rest = [] → committed (run l) = N - 1 ∧ size (commits (run l)) = 0%nat).
Proof.
  intros HN Hp.
  assert (NoDup (l ++ rest)) as Hnd by (rewrite Hp; apply NoDup_seqZ).
  assert (Forall (λ v, 0 ≤ v ≤ max_int64) (l ++ rest)) as Hnn.
  { rewrite Hp. apply Forall_seqZ. intros k Hk. lia. }
  apply NoDup_app in Hnd as (Hnd & _ & _). apply Forall_app in Hnn as [Hnn _].
  pose proof (pending_size l Hnd Hnn) as Hsz.
  assert (Z.of_nat (length l) ≤ N) as Hlen.
  { pose proof (Permutation_length Hp) as Hl. unfold offsets in Hl.
    rewrite length_app, length_seqZ in Hl. lia. }
  split; [lia|]. split; [lia|].
  intros ->. rewrite app_nil_r in Hp.
  pose proof (offsets_watermark N l HN Hp) as Hfin.
  split; [exact Hfin | lia].
Qed.

Lemma pending_size_bound_witness :
  (0 ≤ 3 ≤ max_int64 ∧ [2; 0] ++ [1] ≡ₚ offsets 3) ∧
  Z.of_nat (size (commits (run [2; 0]))) ≤
    Z.of_nat (length [2; 0]) - (committed (run [2; 0]) + 1).
Proof.
  split; [compute_done|].
  apply (pending_size_bound 3 [2; 0] [1]); compute_done.
Defined.

(** C7 as the specification states it fails in its last part: with
    [N = 3], after offset 0 alone the pending set is empty although the
    watermark is 0, not 2. *)
Lemma pending_empty_before_end :
  [0] ++ [1; 2] ≡ₚ offsets 3 ∧
  size (commits (run [0])) = 0%nat ∧
  committed (run [0]) ≠ 3 - 1.
Proof. compute_done. Qed.

(** C8 (out-of-range values), as the code treats them.  Every value is
    accepted.  A negative value stays pending for the rest of the run.  A
    non-negative value [v], whether below [N] or not, is passed by the
    watermark exactly when all of [[0, v]] has been received; so while some
    offset below [N] is missing, the watermark is below [N - 1] and every
    out-of-range value received is still pending. *)
Theorem out_of_range_offset (N : Z) (l : list Z) (v : Z) :
  stream l → v ∈ l →
  (v < 0 → v ∈ commits (run l)) ∧
  (0 ≤ v → (v ≤ committed (run l) ↔ contiguous l v)) ∧
  (∀ k, 0 ≤ k < N → k ∉ l →
     committed (run l) < N - 1 ∧ (v < 0 ∨ N ≤ v → v ∈ commits (run l))).
Proof.
  intros Hst Hv. pose proof (stream_Inv l Hst) as HI.
  pose proof (inv_range _ _ HI) as Hr.
  assert (v ∉ commits (run l) → 0 ≤ v ≤ committed (run l)) as Habs
    by apply (inv_absorbed _ _ HI v Hv).
  split; [|split].
  - intros Hneg.
    destruct (decide (v ∈ commits (run l))) as [Hin|Hout]; [exact Hin|].
    specialize (Habs Hout). lia.
  - intros Hpos. split.
    + intros Hle k Hk. apply (inv_prefix _ _ HI). lia.
    + intros Hc. apply watermark_largest; [apply Hst | apply stream_safe, Hst | exact Hc].
  - intros k Hk Hmiss.
    assert (committed (run l) < k) as Hlt.
    { destruct (decide (committed (run l) < k)) as [H|H]; [exact H|].
      exfalso. apply Hmiss, (inv_prefix _ _ HI). lia. }
    split; [lia|]. intros Hrange.
    destruct (decide (v ∈ commits (run l))) as [Hin|Hout]; [exact Hin|].
    specialize (Habs Hout). lia.
Qed.

Lemma out_of_range_offset_witness :
  (stream [0; 7; 2] ∧ 7 ∈ [0; 7; 2] ∧ 0 ≤ 1 < 3 ∧ 1 ∉ [0; 7; 2]) ∧
  committed (run [0; 7; 2]) < 3 - 1 ∧ (7 < 0 ∨ 3 ≤ 7 → 7 ∈ commits (run [0; 7; 2])).
Proof.
  split; [compute_done|].
  apply (out_of_range_offset 3 [0; 7; 2] 7) with (k := 1); compute_done.
Defined.

(** C8 as the specification states it fails: with [N = 3], the value 3 is
    out of range, yet after 0, 1, 2, 3 it has been absorbed and the
    watermark is 3, above [N - 1]. *)
Lemma out_of_range_absorbed :
  stream [0; 1; 2; 3] ∧ 3 ∈ [0; 1; 2; 3] ∧ 3 ≤ 3 ∧
  (3 ∉ commits (run [0; 1; 2; 3])) ∧
  committed (run [0; 1; 2; 3]) = 3 ∧
  ¬ (committed (run [0; 1; 2; 3]) ≤ 3 - 1).
Proof. compute_done. Qed.

(** C9 (termination of the loop).  From every key set and every
    watermark the loop exits: a budget of as many turns as the set has keys
    is enough, the budgeted loop then returns what [absorb] returns, each
    turn has deleted one key, and the guard is false on exit. *)
Theorem absorb_terminates (set : gset Z) (c : Z) (fuel : nat) :
  (size set ≤ fuel)%nat →
  ∃ n, absorb_fuel fuel set c = Some (n, absorb set c) ∧
       (n ≤ size set)%nat ∧
       (size (commits (absorb set c)) + n = size set)%nat ∧
       next (committed (absorb set c)) ∉ commits (absorb set c).
Proof.
  intros Hsz. destruct (absorb_fuel_enough fuel set c Hsz) as (n & Heq & Hn).
  exists n. split; [exact Heq|]. split; [lia|]. split; [exact Hn|].
  apply absorb_exit.
Qed.

Lemma absorb_terminates_witness :
  (size ({[ 0; 1; 5 ]}%Z : gset Z) ≤ 3)%nat ∧
  ∃ n, absorb_fuel 3 {[ 0; 1; 5 ]} (-1) = Some (n, absorb {[ 0; 1; 5 ]} (-1)) ∧
       (n ≤ size ({[ 0; 1; 5 ]}%Z : gset Z))%nat.
Proof.
  split; [compute_done|].
  destruct (absorb_terminates {[ 0; 1; 5 ]} (-1) 3) as (n & Heq & Hn & _);
    [compute_done|].
  exists n. split; assumption.
Defined.

(** C10 (the successor of the watermark).  After every commit step the
    value watermark + 1 is not pending, and a commit step raises the
    watermark exactly when the value it receives is the watermark before
    the step plus one (for any values, distinct or not). *)
Theorem successor_not_pending (l : list Z) (v : Z) :
  stream (l ++ [v]) →
  (committed (commitStep (run l) v) + 1 ∉ commits (commitStep (run l) v)) ∧
  (committed (run l) < committed (commitStep (run l) v) ↔ v = committed (run l) + 1).
Proof.
  intros Hst. pose proof (stream_app_l _ _ Hst) as Hstl.
  pose proof (stream_Inv l Hstl) as HI.
  pose proof (stream_safe _ Hst) as Hs.
  destruct (commitStep_spec l (run l) v HI Hs) as (HI' & Hle & Hrun & Hkeys).
  rewrite <- run_snoc in *.
  pose proof (stream_below_max _ Hst) as Hmax'.
  pose proof (stream_below_max _ Hstl) as Hmax.
  pose proof (inv_next _ _ HI') as Hexit'.
  rewrite (next_succ _ (Inv_int64 _ _ HI') Hmax') in Hexit'.
  pose proof (inv_next _ _ HI) as Hexit.
  rewrite (next_succ _ (Inv_int64 _ _ HI) Hmax) in Hexit.
  split; [exact Hexit'|]. split.
  - intros Hlt. destruct (Hrun (committed (run l) + 1)) as [Heq|Hin]; [lia| |].
    + symmetry. exact Heq.
    + contradiction.
  - intros ->. destruct (decide (committed (run l) < committed (run (l ++ [committed (run l) + 1]))))
      as [Hlt|Hge]; [exact Hlt|].
    exfalso. assert (committed (run l) + 1 ∈ commits (run (l ++ [committed (run l) + 1]))) as Hin.
    { apply Hkeys. split; [left; reflexivity | lia]. }
    assert (committed (run (l ++ [committed (run l) + 1])) = committed (run l)) as Heq by lia.
    rewrite Heq in Hexit'. contradiction.
Qed.

Lemma successor_not_pending_witness :
  stream ([2; 0] ++ [1]) ∧
  (committed (run [2; 0]) < committed (commitStep (run [2; 0]) 1)
   ↔ 1 = committed (run [2; 0]) + 1).
Proof.
  split; [compute_done|].
  apply (successor_not_pending [2; 0] 1). compute_done.
Defined.

(** ** Beyond the claims: the helpers of [main] *)

Lemma bToMb_bounds b :
  0 ≤ b → bToMb b = b / 2 ^ 20 ∧ 2 ^ 20 * bToMb b ≤ b < 2 ^ 20 * (bToMb b + 1).
Proof.
  intros Hb. unfold bToMb.
  assert (b / 1024 / 1024 = b / 2 ^ 20) as Heq.
  { rewrite Z.div_div by lia. reflexivity. }
  rewrite Heq. split; [reflexivity|].
  pose proof (Z.mul_div_le b (2 ^ 20) ltac:(lia)) as Hlo.
  pose proof (Z.mul_succ_div_gt b (2 ^ 20) ltac:(lia)) as Hhi.
  lia.
Qed.

(** X1.  [bToMb] (lines 22-24) rounds a byte count down to whole mebibytes:
    its result is the one [m] with [m * 2^20 ≤ b < (m + 1) * 2^20]; it is
    below [2^44], so it fits the result type. *)
Theorem bToMb_floor (b : Z) :
  uint64 b →
  (∀ m, bToMb b = m ↔ 2 ^ 20 * m ≤ b < 2 ^ 20 * (m + 1)) ∧
  0 ≤ bToMb b < 2 ^ 44 ∧ uint64 (bToMb b).
Proof.
  unfold uint64. intros Hb.
  destruct (bToMb_bounds b ltac:(lia)) as [Heq Hbd].
  split; [|nia].
  intros m. split; [intros <-; exact Hbd|].
  intros Hm. rewrite Heq. symmetry.
  apply Z.div_unique with (r := b - 2 ^ 20 * m); lia.
Qed.

Lemma bToMb_floor_witness :
  uint64 3145727 ∧ bToMb 3145727 = 2.
Proof.
  split; [compute_done|].
  apply (bToMb_floor 3145727); [compute_done | lia].
Defined.

(** X2.  [bToMb] is monotone, and is [0] exactly below one mebibyte. *)
Theorem bToMb_mono (b b' : Z) :
  uint64 b → uint64 b' →
  (b ≤ b' → bToMb b ≤ bToMb b') ∧ (bToMb b = 0 ↔ b < 1048576).
Proof.
  unfold uint64. intros Hb Hb'.
  destruct (bToMb_bounds b ltac:(lia)) as [_ H1].
  destruct (bToMb_bounds b' ltac:(lia)) as [_ H2].
  split.
  - intros Hle. nia.
  - split; [intros H0; rewrite H0 in H1; lia | intros Hlt; nia].
Qed.

Lemma bToMb_mono_witness :
  (uint64 1048575 ∧ uint64 1048576 ∧ 1048575 ≤ 1048576) ∧
  bToMb 1048575 ≤ bToMb 1048576.
Proof.
  split; [compute_done|].
  apply (bToMb_mono 1048575 1048576); compute_done.
Defined.

Lemma spawn_from fuel N i :
  int64 N → int64 i →
  spawn fuel N i =
  if decide (Z.to_nat (N - i) ≤ fuel)%nat then Some (seqZ i (N - i)) else None.
Proof.
  intros HN. revert i. induction fuel as [|fuel IH]; intros i Hi; simpl.
  - destruct (decide (i < N)) as [Hlt|Hge].
    + rewrite decide_False by lia. reflexivity.
    + rewrite decide_True by lia. rewrite seqZ_nil by lia. reflexivity.
  - destruct (decide (i < N)) as [Hlt|Hge].
    + assert (wrap64 (i + 1) = i + 1) as Hw.
      { apply wrap64_id. unfold int64 in *. lia. }
      rewrite Hw, IH by (unfold int64 in *; lia).
      destruct (decide (Z.to_nat (N - (i + 1)) ≤ fuel)%nat) as [Hf|Hf].
      * rewrite decide_True by lia. rewrite (seqZ_cons i) by lia.
        do 3 f_equal; lia.
      * rewrite decide_False by lia. reflexivity.
    + rewrite decide_True by lia. rewrite seqZ_nil by lia. reflexivity.
Qed.

(** X3.  The loop that creates the producers (lines 40-48) hands out the
    offsets [0, 1, ..., numMsgs-1], each once and in this order, in
    exactly [numMsgs] turns: a smaller budget does not reach the exit,
    and the counter never wraps.  For [numMsgs ≤ 0] it creates nobody. *)
Theorem spawn_offsets (numMsgs : Z) (fuel : nat) :
  int64 numMsgs →
  spawn fuel numMsgs 0 =
    (if decide (Z.to_nat numMsgs ≤ fuel)%nat then Some (offsets numMsgs) else None) ∧
  (numMsgs ≤ 0 → spawn fuel numMsgs 0 = Some []).
Proof.
  intros HN. rewrite spawn_from by (exact HN || (unfold int64, min_int64, max_int64; lia)).
  rewrite Z.sub_0_r. split; [reflexivity|].
  intros Hle. rewrite decide_True by lia. rewrite seqZ_nil by lia. reflexivity.
Qed.

Lemma spawn_offsets_witness :
  int64 4 ∧ spawn 4 4 0 = Some [0; 1; 2; 3] ∧ spawn 3 4 0 = None.
Proof.
  split; [compute_done|]. split.
  - apply (spawn_offsets 4 4). compute_done.
  - apply (spawn_offsets 4 3). compute_done.
Defined.

(** ** Beyond the claims: the program as a whole *)

Lemma take_out_perm v l w : take_out v l = Some w → l ≡ₚ v :: w.
Proof.
  revert w. induction l as [|x l IH]; intros w Hw; simpl in Hw; [discriminate|].
  destruct (decide (x = v)) as [->|Hne].
  - injection Hw as <-. reflexivity.
  - destruct (take_out v l) as [r|] eqn:Hr; [|discriminate].
    injection Hw as <-. rewrite (IH r eq_refl). apply Permutation_swap.
Qed.

Lemma take_out_elem v l : v ∈ l → ∃ w, take_out v l = Some w.
Proof.
  induction l as [|x l IH]; intros Hv; [apply not_elem_of_nil in Hv; contradiction|].
  simpl. destruct (decide (x = v)) as [->|Hne]; [eexists; reflexivity|].
  apply elem_of_cons in Hv as [->|Hv]; [contradiction|].
  destruct (IH Hv) as [w ->]. eexists. reflexivity.
Qed.

Lemma boot_eq N :
  0 ≤ N ≤ max_int64 → boot N = Some (System (offsets N) [] init [] false).
Proof.
  intros HN. unfold boot. rewrite decide_False by lia.
  rewrite spawn_from by (unfold int64, min_int64, max_int64 in *; lia).
  rewrite Z.sub_0_r, decide_True by lia. reflexivity.
Qed.

(** Part of the offsets: distinct, non-negative, below [N], counted. *)
Lemma part_of_offsets N r rest :
  0 ≤ N ≤ max_int64 → r ++ rest ≡ₚ offsets N →
  NoDup r ∧ Forall (λ v, 0 ≤ v ≤ max_int64) r ∧ (∀ x, x ∈ r → 0 ≤ x < N) ∧
  Z.of_nat (length r) + Z.of_nat (length rest) = N.
Proof.
  intros HN Hp.
  assert (NoDup (r ++ rest)) as Hnd by (rewrite Hp; apply NoDup_seqZ).
  apply NoDup_app in Hnd as (Hnd & _ & _).
  assert (∀ x, x ∈ r → 0 ≤ x < N) as Hin.
  { intros x Hx. assert (x ∈ offsets N) as Hx'.
    { rewrite <- Hp. apply elem_of_app. left. exact Hx. }
    apply elem_of_seqZ in Hx'. lia. }
  split; [exact Hnd|]. split; [|split; [exact Hin|]].
  - apply Forall_forall. intros x Hx. specialize (Hin x Hx). lia.
  - pose proof (Permutation_length Hp) as Hl. unfold offsets in Hl.
    rewrite length_app, length_seqZ in Hl. lia.
Qed.

Lemma watermark_below_count N r :
  0 ≤ N → safe r → (∀ x, x ∈ r → 0 ≤ x < N) → committed (run r) ≤ N - 1.
Proof.
  intros HN Hs Hin. pose proof (run_Inv r Hs) as HI.
  destruct (decide (committed (run r) ≤ N - 1)) as [Hle|Hgt]; [exact Hle|].
  exfalso. assert (N ∈ r) as HNr by (apply (inv_prefix _ _ HI); lia).
  specialize (Hin N HNr). lia.
Qed.

Lemma StronglySorted_snoc (l : list Z) (c : Z) :
  StronglySorted Z.le l → Forall (λ x, x ≤ c) l → StronglySorted Z.le (l ++ [c]).
Proof.
  intros Hl Hc. apply StronglySorted_app. split; [|split; [exact Hl|]].
  - intros x y Hx Hy. apply list_elem_of_singleton in Hy. subst y.
    rewrite Forall_forall in Hc. apply Hc, Hx.
  - apply StronglySorted_cons. split; [apply Forall_nil | apply SSorted_nil]; exact I.
Qed.

Lemma SysInv_boot N : 0 ≤ N ≤ max_int64 → SysInv N (System (offsets N) [] init [] false).
Proof.
  intros HN. exists []. simpl. split; [reflexivity|]. split; [reflexivity|].
  split; [apply Forall_nil; exact I|]. split; [apply SSorted_nil | apply Forall_nil; exact I].
Qed.

Lemma SysInv_step N s ev s' :
  0 ≤ N ≤ max_int64 → SysInv N s → step N s ev = Some s' → SysInv N s'.
Proof.
  intros HN (r & Hagg & Hp & Hpr & Hsort & Hfin) Hstep. unfold step in Hstep.
  destruct (finished s) eqn:Hf; [discriminate|].
  destruct ev as [v| |].
  - destruct (take_out v (waiting s)) as [w|] eqn:Hw; [|discriminate].
    destruct (decide (Z.of_nat (length (commitChan s)) < N)); [|discriminate].
    injection Hstep as <-. exists r. simpl.
    split; [exact Hagg|]. split; [|split; [exact Hpr|split; [exact Hsort|exact Hfin]]].
    rewrite <- Hp, (take_out_perm _ _ _ Hw), <- app_assoc. simpl.
    apply Permutation_app_head, Permutation_app_head. reflexivity.
  - destruct (commitChan s) as [|v q] eqn:Hq; [discriminate|].
    injection Hstep as <-. exists (r ++ [v]). simpl.
    assert ((r ++ [v]) ++ q ++ waiting s ≡ₚ offsets N) as Hp'.
    { rewrite <- app_assoc. exact Hp. }
    destruct (part_of_offsets N _ _ HN Hp') as (_ & Hnn & _ & _).
    pose proof (watermark_mono r [v] (nonneg_safe _ Hnn)) as Hmono.
    rewrite Hagg, <- run_snoc.
    split; [reflexivity|]. split; [exact Hp'|]. split; [|split; [exact Hsort|exact Hfin]].
    rewrite Hagg in Hpr. eapply Forall_impl; [exact Hpr|].
    intros c Hc. simpl in Hc. lia.
  - injection Hstep as <-. exists r. simpl.
    destruct (part_of_offsets N _ _ HN Hp) as (_ & Hnn & Hin & _).
    pose proof (inv_range _ _ (run_Inv r (nonneg_safe _ Hnn))) as Hr.
    pose proof (watermark_below_count N r ltac:(lia) (nonneg_safe _ Hnn) Hin) as Hup.
    rewrite Hagg in *.
    split; [reflexivity|]. split; [exact Hp|]. split; [|split].
    + apply Forall_app. split; [exact Hpr|]. apply Forall_singleton. lia.
    + apply StronglySorted_snoc; [exact Hsort|].
      eapply Forall_impl; [exact Hpr|]. intros c Hc. simpl in Hc. lia.
    + rewrite wrap64_id by (unfold int64, min_int64, max_int64 in *; lia).
      destruct (bool_decide (¬ committed (run r) < N - 1)) eqn:Hdone.
      * apply bool_decide_eq_true in Hdone. exists (printed s).
        split; [f_equal; f_equal; lia | exact Hfin].
      * apply bool_decide_eq_false in Hdone.
        apply Forall_app. split; [exact Hfin|]. apply Forall_singleton. lia.
Qed.

Lemma SysInv_exec N evs s s' :
  0 ≤ N ≤ max_int64 → SysInv N s → exec N evs s = Some s' → SysInv N s'.
Proof.
  intros HN. revert s. induction evs as [|ev evs IH]; intros s HI Hex; simpl in Hex.
  - injection Hex as <-. exact HI.
  - destruct (step N s ev) as [s1|] eqn:Hs1; [|discriminate].
    eapply IH; [|exact Hex]. eapply SysInv_step; eassumption.
Qed.

Lemma SysInv_reach N evs s0 s :
  0 ≤ N ≤ max_int64 → boot N = Some s0 → exec N evs s0 = Some s → SysInv N s.
Proof.
  intros HN Hb Hex. rewrite (boot_eq N HN) in Hb. injection Hb as <-.
  eapply SysInv_exec; [exact HN | apply SysInv_boot, HN | exact Hex].
Qed.

Lemma SysInv_counts N s :
  0 ≤ N ≤ max_int64 → SysInv N s →
  ∃ r, aggregator s = run r ∧
       r ++ commitChan s ++ waiting s ≡ₚ offsets N ∧
       NoDup r ∧ Forall (λ v, 0 ≤ v ≤ max_int64) r ∧
       -1 ≤ committed (run r) ≤ N - 1 ∧
       Z.of_nat (size (commits (run r))) + Z.of_nat (length (commitChan s))
         + Z.of_nat (length (waiting s)) = N - (committed (run r) + 1).
Proof.
  intros HN (r & Hagg & Hp & _). exists r.
  destruct (part_of_offsets N _ _ HN Hp) as (Hnd & Hnn & Hin & Hlen).
  pose proof (inv_range _ _ (run_Inv r (nonneg_safe _ Hnn))) as Hr.
  pose proof (watermark_below_count N r ltac:(lia) (nonneg_safe _ Hnn) Hin) as Hup.
  pose proof (pending_size r Hnd Hnn) as Hsz.
  rewrite length_app in Hlen.
  split; [exact Hagg|]. split; [exact Hp|]. split; [exact Hnd|].
  split; [exact Hnn|]. split; lia.
Qed.

Lemma exec_app N evs evs' s :
  exec N (evs ++ evs') s =
  match exec N evs s with Some s' => exec N evs' s' | None => None end.
Proof.
  revert s. induction evs as [|ev evs IH]; intros s; simpl; [reflexivity|].
  destruct (step N s ev) as [s1|]; [apply IH | reflexivity].
Qed.

Lemma send_all N w :
  0 ≤ N ≤ max_int64 →
  ∀ s, SysInv N s → finished s = false → waiting s = w →
  ∃ s', exec N (map Send w) s = Some s' ∧ waiting s' = [] ∧
        commitChan s' = commitChan s ++ w ∧ finished s' = false ∧ SysInv N s'.
Proof.
  intros HN. induction w as [|v w IH]; intros s HI Hf Hw.
  - exists s. simpl. rewrite app_nil_r. repeat split; assumption.
  - destruct (SysInv_counts N s HN HI) as (r & _ & _ & _ & _ & Hc & Hcount).
    assert (step N s (Send v)
            = Some (System w (commitChan s ++ [v]) (aggregator s) (printed s) false))
      as Hstep.
    { unfold step. rewrite Hf, Hw. simpl. rewrite decide_True by reflexivity.
      rewrite Hw in Hcount. simpl in Hcount. rewrite decide_True by lia. reflexivity. }
    destruct (IH _ (SysInv_step _ _ _ _ HN HI Hstep) eq_refl eq_refl)
      as (s' & Hex & Hw' & Hq' & Hf' & HI').
    exists s'. simpl. rewrite Hstep. simpl in Hq'.
    rewrite <- app_assoc in Hq'. repeat split; assumption.
Qed.

Lemma recv_all N q :
  0 ≤ N ≤ max_int64 →
  ∀ s, SysInv N s → finished s = false → commitChan s = q →
  ∃ s', exec N (replicate (length q) Recv) s = Some s' ∧ commitChan s' = [] ∧
        waiting s' = waiting s ∧ finished s' = false ∧ SysInv N s'.
Proof.
  intros HN. induction q as [|v q IH]; intros s HI Hf Hq.
  - exists s. simpl. repeat split; assumption.
  - assert (step N s Recv
            = Some (System (waiting s) q (commitStep (aggregator s) v) (printed s) false))
      as Hstep.
    { unfold step. rewrite Hf, Hq. reflexivity. }
    destruct (IH _ (SysInv_step _ _ _ _ HN HI Hstep) eq_refl eq_refl)
      as (s' & Hex & Hq' & Hw' & Hf' & HI').
    exists s'. simpl. rewrite Hstep. repeat split; assumption.
Qed.

(** ** Beyond the claims: the theorems *)

(** X4.  Nothing is lost and nothing is invented: in every state the program
    reaches, the values the aggregator has processed (in the order it
    received them), the values waiting in the channel and the offsets
    whose goroutine has not sent yet are together the offsets
    [0 .. numMsgs-1], each exactly once. *)
Theorem offsets_conserved (N : Z) (evs : list event) (s0 s : system) :
  0 ≤ N ≤ max_int64 → boot N = Some s0 → exec N evs s0 = Some s →
  ∃ r, aggregator s = run r ∧ r ++ commitChan s ++ waiting s ≡ₚ offsets N.
Proof.
  intros HN Hb Hex.
  destruct (SysInv_reach N evs s0 s HN Hb Hex) as (r & Hagg & Hp & _).
  exists r. split; assumption.
Qed.

Lemma offsets_conserved_witness :
  (0 ≤ 3 ≤ max_int64 ∧
   boot 3 = Some (System [0; 1; 2] [] init [] false) ∧
   exec 3 [Send 2; Send 0; Recv; Tick] (System [0; 1; 2] [] init [] false)
   = Some (System [1] [0] (run [2]) [-1] false)) ∧
  ∃ r, run [2] = run r ∧ r ++ [0] ++ [1] ≡ₚ offsets 3.
Proof.
  split; [compute_done|].
  apply (offsets_conserved 3 [Send 2; Send 0; Recv; Tick]
           (System [0; 1; 2] [] init [] false)
           (System [1] [0] (run [2]) [-1] false)); compute_done.
Defined.

(** X5.  A send never blocks: while a goroutine still holds an offset, the
    channel of capacity [numMsgs] has room, so its send goes through. *)
Theorem send_never_blocks (N : Z) (evs : list event) (s0 s : system) (v : Z) :
  0 ≤ N ≤ max_int64 → boot N = Some s0 → exec N evs s0 = Some s →
  finished s = false → v ∈ waiting s →
  Z.of_nat (length (commitChan s)) < N ∧
  ∃ w, step N s (Send v)
       = Some (System w (commitChan s ++ [v]) (aggregator s) (printed s) false).
Proof.
  intros HN Hb Hex Hf Hv.
  pose proof (SysInv_reach N evs s0 s HN Hb Hex) as HI.
  destruct (SysInv_counts N s HN HI) as (r & _ & _ & _ & _ & Hc & Hcount).
  assert (0 < Z.of_nat (length (waiting s))) as Hpos.
  { destruct (waiting s); [apply not_elem_of_nil in Hv; contradiction | simpl; lia]. }
  assert (Z.of_nat (length (commitChan s)) < N) as Hroom by lia.
  split; [exact Hroom|].
  destruct (take_out_elem v _ Hv) as [w Hw]. exists w.
  unfold step. rewrite Hf, Hw, decide_True by exact Hroom. reflexivity.
Qed.

Lemma send_never_blocks_witness :
  (0 ≤ 3 ≤ max_int64 ∧
   boot 3 = Some (System [0; 1; 2] [] init [] false) ∧
   exec 3 [Send 2; Send 0] (System [0; 1; 2] [] init [] false)
   = Some (System [1] [2; 0] init [] false) ∧
   1 ∈ [1]) ∧
  Z.of_nat (length [2; 0]) < 3.
Proof.
  split; [compute_done|].
  apply (send_never_blocks 3 [Send 2; Send 0]
           (System [0; 1; 2] [] init [] false)
           (System [1] [2; 0] init [] false) 1); compute_done.
Defined.



(** X7.  The monitor cannot report completion early: when it has left its loop
    every goroutine has sent, the channel is drained, the map is empty and
    the watermark is [numMsgs-1], which is the last value it printed. *)
Theorem monitor_sound (N : Z) (evs : list event) (s0 s : system) :
  0 ≤ N ≤ max_int64 → boot N = Some s0 → exec N evs s0 = Some s →
  finished s = true →
  waiting s = [] ∧ commitChan s = [] ∧
  aggregator s = State ∅ (N - 1) ∧ last (printed s) = Some (N - 1).
Proof.
  intros HN Hb Hex Hf.
  pose proof (SysInv_reach N evs s0 s HN Hb Hex) as HI.
  destruct (SysInv_counts N s HN HI) as (r & Hagg & _ & _ & _ & Hc & Hcount).
  destruct HI as (r' & _ & _ & Hpr & _ & Hfin).
  rewrite Hf in Hfin. destruct Hfin as (p & Hp & _).
  rewrite Hp, Forall_app, Forall_singleton, Hagg in Hpr. destruct Hpr as [_ Hlast].
  assert (committed (run r) = N - 1) as Heq by lia.
  rewrite Heq in Hcount.
  assert (size (commits (run r)) = 0%nat) as Hsz by lia.
  split; [apply length_zero_iff_nil; lia|]. split; [apply length_zero_iff_nil; lia|].
  split.
  - rewrite Hagg, <- (state_eta (run r)), Heq. f_equal.
    apply leibniz_equiv, size_empty_inv, Hsz.
  - rewrite Hp. apply last_snoc.
Qed.

Lemma monitor_sound_witness :
  (0 ≤ 2 ≤ max_int64 ∧
   boot 2 = Some (System [0; 1] [] init [] false) ∧
   exec 2 [Send 1; Tick; Recv; Send 0; Recv; Tick] (System [0; 1] [] init [] false)
   = Some (System [] [] (State ∅ 1) [-1; 1] true)) ∧
  last [-1; 1] = Some (2 - 1).
Proof.
  split; [compute_done|].
  apply (monitor_sound 2 [Send 1; Tick; Recv; Send 0; Recv; Tick]
           (System [0; 1] [] init [] false)
           (System [] [] (State ∅ 1) [-1; 1] true)); compute_done.
Defined.

(** X8.  What the monitor prints: the printed watermarks never go down, each
    lies in [[-1, numMsgs-1]] and is at most the current watermark, and
    while the monitor is in its loop every one of them is below
    [numMsgs-1] (so [numMsgs-1] is printed once, on leaving the loop). *)
Theorem printed_monotone (N : Z) (evs : list event) (s0 s : system) :
  0 ≤ N ≤ max_int64 → boot N = Some s0 → exec N evs s0 = Some s →
  StronglySorted Z.le (printed s) ∧
  Forall (λ c, -1 ≤ c ≤ committed (aggregator s) ∧ c ≤ N - 1) (printed s) ∧
  (finished s = false → Forall (λ c, c < N - 1) (printed s)).
Proof.
  intros HN Hb Hex.
  pose proof (SysInv_reach N evs s0 s HN Hb Hex) as HI.
  destruct (SysInv_counts N s HN HI) as (r & Hagg & _ & _ & _ & Hc & _).
  destruct HI as (r' & _ & _ & Hpr & Hsort & Hfin).
  split; [exact Hsort|]. split.
  - eapply Forall_impl; [exact Hpr|]. intros c Hcc. simpl in Hcc.
    rewrite Hagg in *. lia.
  - intros Hf. rewrite Hf in Hfin. exact Hfin.
Qed.

Lemma printed_monotone_witness :
  (0 ≤ 2 ≤ max_int64 ∧
   boot 2 = Some (System [0; 1] [] init [] false) ∧
   exec 2 [Send 1; Tick; Recv; Send 0; Recv; Tick] (System [0; 1] [] init [] false)
   = Some (System [] [] (State ∅ 1) [-1; 1] true)) ∧
  StronglySorted Z.le [-1; 1].
Proof.
  split; [compute_done|].
  apply (printed_monotone 2 [Send 1; Tick; Recv; Send 0; Recv; Tick]
           (System [0; 1] [] init [] false)
           (System [] [] (State ∅ 1) [-1; 1] true)); compute_done.
Defined.

(** X9.  The program cannot get stuck: from every state it reaches with the
    monitor still in its loop, letting the remaining goroutines send,
    the aggregator receive everything, and the ticker fire once more is
    possible and makes the monitor leave its loop. *)
Theorem can_finish (N : Z) (evs : list event) (s0 s : system) :
  0 ≤ N ≤ max_int64 → boot N = Some s0 → exec N evs s0 = Some s →
  finished s = false →
  ∃ s', exec N (map Send (waiting s)
                ++ replicate (length (commitChan s ++ waiting s)) Recv
                ++ [Tick]) s = Some s' ∧
        finished s' = true.
Proof.
  intros HN Hb Hex Hf.
  pose proof (SysInv_reach N evs s0 s HN Hb Hex) as HI.
  destruct (send_all N (waiting s) HN s HI Hf eq_refl)
    as (s1 & Hex1 & Hw1 & Hq1 & Hf1 & HI1).
  destruct (recv_all N (commitChan s1) HN s1 HI1 Hf1 eq_refl)
    as (s2 & Hex2 & Hq2 & Hw2 & Hf2 & HI2).
  destruct (SysInv_counts N s2 HN HI2) as (r & Hagg & Hp & _ & _ & Hc & Hcount).
  rewrite Hq2, Hw2, Hw1, !app_nil_r in Hp.
  pose proof (offsets_watermark N r HN Hp) as Hfin.
  eexists. rewrite exec_app, Hex1. cbv beta iota.
  rewrite <- Hq1, exec_app, Hex2. cbv beta iota. simpl.
  unfold step. rewrite Hf2. split; [reflexivity|]. simpl.
  rewrite Hagg, Hfin. apply bool_decide_eq_true.
  rewrite wrap64_id by (unfold int64, min_int64, max_int64 in *; lia). lia.
Qed.

Lemma can_finish_witness :
  (0 ≤ 3 ≤ max_int64 ∧
   boot 3 = Some (System [0; 1; 2] [] init [] false) ∧
   exec 3 [Send 2; Send 0; Recv; Tick] (System [0; 1; 2] [] init [] false)
   = Some (System [1] [0] (run [2]) [-1] false)) ∧
  ∃ s', exec 3 [Send 1; Recv; Recv; Tick] (System [1] [0] (run [2]) [-1] false)
        = Some s' ∧ finished s' = true.
Proof.
  split; [compute_done|].
  apply (can_finish 3 [Send 2; Send 0; Recv; Tick]
           (System [0; 1; 2] [] init [] false)
           (System [1] [0] (run [2]) [-1] false)); compute_done.
Defined.

(** X12.  The state is a function of the set received: for distinct
    non-negative offsets the map holds exactly the values received that
    are above the watermark, so any two arrival orders of the same offsets
    leave the aggregator in the same state, map included. *)
Theorem state_of_received (l l' : list Z) :
  NoDup l → Forall (λ v, 0 ≤ v ≤ max_int64) l → l ≡ₚ l' →
  (∀ x, x ∈ commits (run l) ↔ x ∈ l ∧ committed (run l) < x) ∧
  run l' = run l.
Proof.
  assert (∀ k, NoDup k → Forall (λ v, 0 ≤ v ≤ max_int64) k →
          ∀ x, x ∈ commits (run k) ↔ x ∈ k ∧ committed (run k) < x) as Hchar.
  { intros k Hnd Hnn x. pose proof (run_Inv k (nonneg_safe _ Hnn)) as HI. split.
    - intros Hx. split; [apply (inv_pending _ _ HI), Hx | apply pending_above; assumption].
    - intros [Hx Hlt]. destruct (decide (x ∈ commits (run k))) as [Hin|Hout]; [exact Hin|].
      pose proof (inv_absorbed _ _ HI x Hx Hout). lia. }
  assert (∀ k, Forall (λ v, 0 ≤ v ≤ max_int64) k → Forall int64 k) as Hty.
  { intros k Hk. eapply Forall_impl; [exact Hk|].
    intros v Hv. simpl in Hv. unfold int64, min_int64. lia. }
  intros Hnd Hnn Hp. split; [apply Hchar; assumption|].
  assert (NoDup l') as Hnd' by (rewrite <- Hp; exact Hnd).
  assert (Forall (λ v, 0 ≤ v ≤ max_int64) l') as Hnn' by (rewrite <- Hp; exact Hnn).
  assert (committed (run l') = committed (run l)) as Hc.
  { apply watermark_same_offsets;
      [apply Hty, Hnn' | apply nonneg_safe, Hnn' | apply Hty, Hnn | apply nonneg_safe, Hnn |].
    intros k _. rewrite Hp. reflexivity. }
  rewrite <- (state_eta (run l')), <- (state_eta (run l)), Hc. f_equal.
  apply set_eq. intros x. rewrite (Hchar l' Hnd' Hnn'), (Hchar l Hnd Hnn), Hc.
  assert (x ∈ l' ↔ x ∈ l) as Hmem by (rewrite Hp; reflexivity).
  tauto.
Qed.

Lemma state_of_received_witness :
  (NoDup [4; 0; 2] ∧ Forall (λ v, 0 ≤ v ≤ max_int64) [4; 0; 2] ∧
   [4; 0; 2] ≡ₚ [2; 4; 0]) ∧
  run [2; 4; 0] = run [4; 0; 2].
Proof.
  split; [compute_done|].
  apply (state_of_received [4; 0; 2] [2; 4; 0]); compute_done.
Defined.

Lemma exec_trace N evs :
  ∀ s s' r,
  aggregator s = run r → r ++ commitChan s ++ waiting s ≡ₚ offsets N →
  exec N evs s = Some s' →
  ∃ r', aggregator s' = run r' ∧
        r' ++ commitChan s' = r ++ commitChan s ++ sent evs ∧
        r' ++ commitChan s' ++ waiting s' ≡ₚ offsets N.
Proof.
  induction evs as [|ev evs IH]; intros s s' r Hagg Hp Hex; simpl in Hex.
  - injection Hex as <-. exists r. simpl. rewrite app_nil_r. repeat split; assumption.
  - destruct (step N s ev) as [s1|] eqn:Hstep; [|discriminate].
    unfold step in Hstep. destruct (finished s); [discriminate|].
    destruct ev as [v| |].
    + destruct (take_out v (waiting s)) as [w|] eqn:Hw; [|discriminate].
      destruct (decide (Z.of_nat (length (commitChan s)) < N)); [|discriminate].
      injection Hstep as <-.
      apply (IH _ s' r) in Hex as (r' & Hagg' & Hfifo & Hp'); [|exact Hagg|].
      * exists r'. simpl in Hfifo. rewrite <- app_assoc in Hfifo.
        repeat split; assumption.
      * simpl. rewrite <- Hp, (take_out_perm _ _ _ Hw), <- app_assoc. simpl.
        apply Permutation_app_head, Permutation_app_head. reflexivity.
    + destruct (commitChan s) as [|v q] eqn:Hq; [discriminate|].
      injection Hstep as <-.
      apply (IH _ s' (r ++ [v])) in Hex as (r' & Hagg' & Hfifo & Hp').
      * exists r'. simpl in Hfifo. rewrite <- app_assoc in Hfifo.
        repeat split; assumption.
      * simpl. rewrite Hagg, run_snoc. reflexivity.
      * simpl. rewrite <- app_assoc. exact Hp.
    + injection Hstep as <-.
      apply (IH _ s' r) in Hex as (r' & Hagg' & Hfifo & Hp');
        [|exact Hagg | exact Hp].
      exists r'. repeat split; assumption.
Qed.

(** X10.  The channel is first-in first-out and every goroutine sends once: the
    values the aggregator has processed, followed by the content of the
    channel, are the offsets sent so far in the order of the sends; these
    are distinct, so there are at most [numMsgs] sends in any schedule. *)
Theorem fifo_order (N : Z) (evs : list event) (s0 s : system) :
  0 ≤ N ≤ max_int64 → boot N = Some s0 → exec N evs s0 = Some s →
  (∃ r, aggregator s = run r ∧ r ++ commitChan s = sent evs) ∧
  NoDup (sent evs) ∧ Z.of_nat (length (sent evs)) ≤ N.
Proof.
  intros HN Hb Hex. rewrite (boot_eq N HN) in Hb. injection Hb as <-.
  apply (exec_trace N evs _ s []) in Hex as (r & Hagg & Hfifo & Hp);
    [|reflexivity | simpl; reflexivity].
  simpl in Hfifo. rewrite app_assoc, Hfifo in Hp.
  destruct (part_of_offsets N _ _ HN Hp) as (Hnd & _ & _ & Hlen).
  split; [exists r; split; assumption|]. split; [exact Hnd | lia].
Qed.

Lemma fifo_order_witness :
  (0 ≤ 3 ≤ max_int64 ∧
   boot 3 = Some (System [0; 1; 2] [] init [] false) ∧
   exec 3 [Send 2; Send 0; Recv; Tick] (System [0; 1; 2] [] init [] false)
   = Some (System [1] [0] (run [2]) [-1] false)) ∧
  NoDup (sent [Send 2; Send 0; Recv; Tick]).
Proof.
  split; [compute_done|].
  apply (fifo_order 3 [Send 2; Send 0; Recv; Tick]
           (System [0; 1; 2] [] init [] false)
           (System [1] [0] (run [2]) [-1] false)); compute_done.
Defined.

(** X11.  In the program the map stays clean: every key it holds is an offset
    above the watermark and below [numMsgs]; no key at or below the
    watermark is ever kept. *)
Theorem map_above_watermark (N : Z) (evs : list event) (s0 s : system) (x : Z) :
  0 ≤ N ≤ max_int64 → boot N = Some s0 → exec N evs s0 = Some s →
  x ∈ commits (aggregator s) →
  committed (aggregator s) < x ≤ N - 1.
Proof.
  intros HN Hb Hex Hx.
  pose proof (SysInv_reach N evs s0 s HN Hb Hex) as HI.
  destruct (SysInv_counts N s HN HI) as (r & Hagg & Hp & Hnd & Hnn & _).
  rewrite Hagg in *.
  pose proof (pending_above r Hnd Hnn x Hx) as Hlt.
  pose proof (inv_pending _ _ (run_Inv r (nonneg_safe _ Hnn)) x Hx) as Hin.
  destruct (part_of_offsets N _ _ HN Hp) as (_ & _ & Hrange & _).
  specialize (Hrange x Hin). lia.
Qed.

Lemma map_above_watermark_witness :
  (0 ≤ 3 ≤ max_int64 ∧
   boot 3 = Some (System [0; 1; 2] [] init [] false) ∧
   exec 3 [Send 2; Send 0; Recv; Tick] (System [0; 1; 2] [] init [] false)
   = Some (System [1] [0] (run [2]) [-1] false) ∧
   2 ∈ commits (run [2])) ∧
  committed (run [2]) < 2 ≤ 3 - 1.
Proof.
  split; [compute_done|].
  apply (map_above_watermark 3 [Send 2; Send 0; Recv; Tick]
           (System [0; 1; 2] [] init [] false)
           (System [1] [0] (run [2]) [-1] false)); compute_done.
Defined.
